(** * Route dispatch of [HomePage] (src/frontend/src/components/HomePage.js)

    [HomePage.render] returns a [<Router>] around a [<Switch>] with five
    [<Route>] children.  What decides the rendered view is react-router-dom
    (v5): [Switch] walks its children in order and renders the first one
    whose [matchPath] succeeds on [location.pathname]; [matchPath] compiles
    the route path with path-to-regexp (1.x) using
    [{end: exact, strict: false, sensitive: false}], runs the regular
    expression anchored at the start of the pathname, and for an exact route
    also requires the match to cover the whole pathname.

    This file embeds those pieces: the path parser (for the subset of
    path syntax that appears here: literals and [:name] parameters), the
    regular expression built by [tokensToRegExp], a backtracking matcher for
    the regular expression constructs that it produces, [matchPath], the
    [Switch] selection and the route table of [HomePage.render]. *)

From Stdlib Require Import Ascii String List Bool Arith Lia.
Import ListNotations.
Open Scope string_scope.

(** ** Characters *)

(** Canonicalisation used by a JavaScript regular expression with the [i]
    flag (non-unicode): ASCII lower-case letters are compared as their
    upper-case counterparts; no character of code 128 or above is mapped to
    an ASCII character. *)
Definition upper (c : ascii) : ascii :=
  let n := nat_of_ascii c in
  if (Nat.leb 97 n) && (Nat.leb n 122) then ascii_of_nat (n - 32) else c.

Definition ci_eqb (c d : ascii) : bool := Ascii.eqb (upper c) (upper d).

Definition slash : ascii := "/".

(** [\w] of JavaScript regular expressions: [A-Za-z0-9_]. *)
Definition is_word_char (c : ascii) : bool :=
  let n := nat_of_ascii c in
  ((Nat.leb 48 n) && (Nat.leb n 57)) || ((Nat.leb 65 n) && (Nat.leb n 90))
  || ((Nat.leb 97 n) && (Nat.leb n 122)) || (Nat.eqb n 95).

(** ** path-to-regexp: tokens and parsing *)

(** A token of a parsed route path: a literal string, or a parameter
    [{name, prefix, delimiter: "/", optional: false, repeat: false,
    pattern: "[^\/]+?"}].  Parameters with modifiers, custom patterns or
    asterisks do not occur in [HomePage]'s route paths. *)
Inductive token :=
| TStr (s : string)
| TParam (name : string) (prefix : string).

(** Prepend one literal character: consecutive literal characters are
    accumulated in one [TStr] token, as [parse] does with its [path]
    buffer. *)
Definition push_lit (c : ascii) (toks : list token) : list token :=
  match toks with
  | TStr l :: t => TStr (String c l) :: t
  | _ => TStr (String c EmptyString) :: toks
  end.

(** The longest prefix of word characters, and the rest. *)
Fixpoint span_word (s : string) : string * string :=
  match s with
  | String c s' =>
      if is_word_char c then
        let (w, r) := span_word s' in (String c w, r)
      else (EmptyString, s)
  | EmptyString => (EmptyString, EmptyString)
  end.

(** [parse] of path-to-regexp, restricted to literals and [/:name]
    parameters (the only forms used by the route paths of [HomePage]).
    [fuel] bounds the number of characters read. *)
Fixpoint parse_fuel (fuel : nat) (s : string) : list token :=
  match fuel with
  | O => []
  | S fuel' =>
      match s with
      | EmptyString => []
      | String c (String d rest) =>
          if Ascii.eqb c slash && Ascii.eqb d ":" then
            match span_word rest with
            | (EmptyString, _) => push_lit c (parse_fuel fuel' (String d rest))
            | (name, rest') => TParam name "/" :: parse_fuel fuel' rest'
            end
          else push_lit c (parse_fuel fuel' (String d rest))
      | String c EmptyString => [TStr (String c EmptyString)]
      end
  end.

Definition parse (s : string) : list token := parse_fuel (String.length s) s.

Example parse_order : parse "/order/:orderId" = [TStr "/order"; TParam "orderId" "/"].
Proof. reflexivity. Qed.

Example parse_root : parse "/" = [TStr "/"].
Proof. reflexivity. Qed.

(** ** path-to-regexp: the compiled regular expression *)

(** The regular expression constructs that [tokensToRegExp] produces for
    such tokens (the [i] flag is on, since [sensitive] is [false]). *)
Inductive re :=
| REps                    (* the empty string *)
| RLit (c : ascii)        (* an escaped literal character, compared under [i] *)
| RSeq (r1 r2 : re)       (* concatenation *)
| RNotSlashLazy           (* [[^\/]+?] *)
| RCap (r : re)           (* a capturing group [( ... )] *)
| ROpt (r : re)           (* [(?: ... )?], greedy *)
| RAheadEnd               (* [(?=$)] *)
| RAheadSlashOrEnd        (* [(?=\/|$)] *)
| REnd.                   (* [$] *)

(** The consumed prefix of [s] when [s'] is what is left of it. *)
Definition consumed (s s' : string) : string :=
  substring 0 (String.length s - String.length s') s.

(** [[^\/]+?]: one character other than [/] at least, then as few as
    possible: after each character the continuation is tried first. *)
Fixpoint lazy_not_slash
    (k : string -> list string -> option (string * list string))
    (caps : list string) (t : string) : option (string * list string) :=
  match t with
  | String d t' =>
      if Ascii.eqb d slash then None
      else match k t' caps with
           | Some res => Some res
           | None => lazy_not_slash k caps t'
           end
  | EmptyString => None
  end.

(** Backtracking matcher in continuation-passing style, following the
    ECMAScript semantics: [k] receives what is left of the input and the
    captures so far; alternatives are tried in the order the regular
    expression engine tries them. *)
Fixpoint rmatch (r : re) (s : string) (caps : list string)
    (k : string -> list string -> option (string * list string))
    {struct r} : option (string * list string) :=
  match r with
  | REps => k s caps
  | RLit c =>
      match s with
      | String d s' => if ci_eqb c d then k s' caps else None
      | EmptyString => None
      end
  | RSeq r1 r2 => rmatch r1 s caps (fun s' caps' => rmatch r2 s' caps' k)
  | RNotSlashLazy => lazy_not_slash k caps s
  | RCap r1 =>
      rmatch r1 s caps (fun s' caps' => k s' (caps' ++ [consumed s s'])%list)
  | ROpt r1 =>
      match rmatch r1 s caps k with
      | Some res => Some res
      | None => k s caps
      end
  | RAheadEnd =>
      match s with
      | EmptyString => k s caps
      | String _ _ => None
      end
  | RAheadSlashOrEnd =>
      match s with
      | EmptyString => k s caps
      | String d _ => if Ascii.eqb d slash then k s caps else None
      end
  | REnd =>
      match s with
      | EmptyString => k s caps
      | String _ _ => None
      end
  end.

(** [regexp.exec(pathname)] for a regular expression anchored by [^]:
    the unconsumed rest of the input and the captured groups. *)
Definition exec (r : re) (s : string) : option (string * list string) :=
  rmatch r s [] (fun rest caps => Some (rest, caps)).

(** [escapeString] of a literal: its characters in sequence. *)
Fixpoint lits (s : string) : re :=
  match s with
  | EmptyString => REps
  | String c s' => RSeq (RLit c) (lits s')
  end.

(** A parameter becomes [prefix + "((?:[^\/]+?))"]. *)
Definition token_re (t : token) : re :=
  match t with
  | TStr s => lits s
  | TParam _ prefix => RSeq (lits prefix) (RCap RNotSlashLazy)
  end.

Definition route_re (toks : list token) : re :=
  fold_right (fun t r => RSeq (token_re t) r) REps toks.

Definition ends_with_slash (s : string) : bool :=
  match String.get (String.length s - 1) s with
  | Some c => Ascii.eqb c slash
  | None => false
  end.

(** [endsWithDelimiter] and [route.slice(0, -delimiter.length)]: the
    trailing delimiter of the route, when the last token is a literal
    ending in [/], is dropped. *)
Fixpoint strip_delim (toks : list token) : list token :=
  match toks with
  | [] => []
  | [TStr s] =>
      if ends_with_slash s
      then [TStr (substring 0 (String.length s - 1) s)]
      else toks
  | t :: ts => t :: strip_delim ts
  end.

(** [tokensToRegExp(tokens, keys, {end, strict: false})]:
    non-strict mode appends [(?:\/(?=$))?]; then [$] when [end], and
    [(?=\/|$)] otherwise. *)
Definition tokens_to_regexp (toks : list token) (end_ : bool) : re :=
  RSeq (route_re (strip_delim toks))
       (RSeq (ROpt (RSeq (RLit slash) RAheadEnd))
             (if end_ then REnd else RAheadSlashOrEnd)).

(** The [keys] array filled by [tokensToRegExp]: the parameter names. *)
Fixpoint keys (toks : list token) : list string :=
  match toks with
  | [] => []
  | TParam name _ :: ts => name :: keys ts
  | TStr _ :: ts => keys ts
  end.

(** ** react-router: [matchPath] *)

(** The match object: [{path, url, isExact, params}]; [params] maps each
    key name to its captured value. *)
Record match_ := {
  m_path : string;
  m_url : string;
  m_isExact : bool;
  m_params : list (string * string)
}.

(** [matchPath(pathname, {path, exact})] with [strict] and [sensitive]
    left at [false]. *)
Definition matchPath (pathname path : string) (exact : bool) : option match_ :=
  let toks := parse path in
  match exec (tokens_to_regexp toks exact) pathname with
  | None => None
  | Some (rest, values) =>
      let url := consumed pathname rest in
      let isExact := String.eqb pathname url in
      if exact && negb isExact then None
      else Some {| m_path := path;
                   m_url := if String.eqb path "/" && String.eqb url ""
                            then "/" else url;
                   m_isExact := isExact;
                   m_params := combine (keys toks) values |}
  end.

(** [match.params[name]]. *)
Fixpoint lookup_param (name : string) (ps : list (string * string)) : option string :=
  match ps with
  | [] => None
  | (n, v) :: ps' => if String.eqb n name then Some v else lookup_param name ps'
  end.

(** ** The route table of [HomePage.render] *)

Inductive component := UserGenPage | MakerPage | BookPage | OrderPage.

(** What a [<Route>] renders once matched: a [component] prop, or fixed
    JSX children. *)
Inductive element :=
| EComponent (c : component)
| EHtml (tag : string) (text : string).

Record route := {
  r_path : string;
  r_exact : bool;
  r_elem : element
}.

(** The [<Switch>] children of [HomePage.render], in source order. *)
Definition routes : list route :=
  [ {| r_path := "/"; r_exact := true; r_elem := EComponent UserGenPage |};
    {| r_path := "/home"; r_exact := false;
       r_elem := EHtml "p" "You are at the start page" |};
    {| r_path := "/make"; r_exact := false; r_elem := EComponent MakerPage |};
    {| r_path := "/book"; r_exact := false; r_elem := EComponent BookPage |};
    {| r_path := "/order/:orderId"; r_exact := false; r_elem := EComponent OrderPage |} ].

(** [location] as handed down by [BrowserRouter]. *)
Record location := {
  pathname : string;
  search : string;
  hash : string
}.

(** [Switch.render]: the first child whose [matchPath] succeeds, with its
    index and match; [null] ([None]) when none does. *)
Fixpoint switch_from (i : nat) (p : string) (rs : list route)
    : option (nat * route * match_) :=
  match rs with
  | [] => None
  | r :: rs' =>
      match matchPath p (r_path r) (r_exact r) with
      | Some m => Some (i, r, m)
      | None => switch_from (S i) p rs'
      end
  end.

Definition switch_select (loc : location) (rs : list route)
    : option (nat * route * match_) :=
  switch_from 0 (pathname loc) rs.

(** The rendered output: a component element receiving the match as
    [props.match], or the route's fixed children. *)
Inductive view :=
| VComponent (c : component) (m : match_)
| VHtml (tag : string) (text : string).

(** [Route.render] of a matched route. *)
Definition render_route (r : route) (m : match_) : view :=
  match r_elem r with
  | EComponent c => VComponent c m
  | EHtml tag text => VHtml tag text
  end.

(** [HomePage.render] followed by the [Switch]: the view shown at [loc]. *)
Definition home_render (loc : location) : option view :=
  match switch_select loc routes with
  | Some (_, r, m) => Some (render_route r m)
  | None => None
  end.

Definition at_path (p : string) : location :=
  {| pathname := p; search := ""; hash := "" |}.

Definition rendered_component (p : string) : option component :=
  match home_render (at_path p) with
  | Some (VComponent c _) => Some c
  | _ => None
  end.

Definition rendered_param (p name : string) : option string :=
  match home_render (at_path p) with
  | Some (VComponent _ m) => lookup_param name (m_params m)
  | _ => None
  end.

Example ex_root : rendered_component "/" = Some UserGenPage.
Proof. reflexivity. Qed.
Example ex_home : home_render (at_path "/home") = Some (VHtml "p" "You are at the start page").
Proof. reflexivity. Qed.
Example ex_homepage : home_render (at_path "/homepage") = None.
Proof. reflexivity. Qed.
Example ex_home_upper : home_render (at_path "/HOME/x") = Some (VHtml "p" "You are at the start page").
Proof. reflexivity. Qed.
Example ex_order : rendered_param "/order/42" "orderId" = Some "42".
Proof. reflexivity. Qed.
Example ex_order_tail : rendered_param "/order/42/detail" "orderId" = Some "42".
Proof. reflexivity. Qed.
Example ex_order_slash : rendered_param "/order/42/" "orderId" = Some "42".
Proof. reflexivity. Qed.
Example ex_order_empty : home_render (at_path "/order/") = None.
Proof. reflexivity. Qed.
Example ex_make_tail : rendered_component "/make/extra" = Some MakerPage.
Proof. reflexivity. Qed.
Example ex_root_tail : rendered_component "/x" = None.
Proof. reflexivity. Qed.

(** ** Auxiliary notions for the statements *)

(** A string without [/]. *)
Fixpoint no_slash (s : string) : bool :=
  match s with
  | EmptyString => true
  | String c s' => negb (Ascii.eqb c slash) && no_slash s'
  end.

(** A path segment: non-empty and without [/]. *)
Definition segment (x : string) : Prop := x <> EmptyString /\ no_slash x = true.

(** What may follow a matched prefix at a segment boundary: nothing, or
    further segments introduced by [/]. *)
Definition boundary (rest : string) : Prop :=
  rest = EmptyString \/ exists t, rest = String slash t.

(** A regular expression without capturing group. *)
Fixpoint no_cap (r : re) : bool :=
  match r with
  | RCap _ => false
  | RSeq r1 r2 => no_cap r1 && no_cap r2
  | ROpt r1 => no_cap r1
  | _ => true
  end.

(** A string under the canonicalisation of the [i] flag. *)
Fixpoint upper_str (s : string) : string :=
  match s with
  | EmptyString => EmptyString
  | String c s' => String (upper c) (upper_str s')
  end.

(** Two outcomes of the matcher, one on [s] and one on [upper_str s]:
    both fail, or both succeed with corresponding unconsumed rests. *)
Definition rel_res (o1 o2 : option (string * list string)) : Prop :=
  match o1, o2 with
  | Some (t1, _), Some (t2, _) => t2 = upper_str t1
  | None, None => True
  | _, _ => False
  end.

(** The route and its index chosen by the [Switch], forgetting the match. *)
Definition selected (loc : location) : option (nat * route) :=
  match switch_select loc routes with
  | Some (i, r, _) => Some (i, r)
  | None => None
  end.

(** ** Lemmas on the matcher *)

Lemma ci_eqb_slash (c : ascii) : ci_eqb slash c = Ascii.eqb c slash.
Proof.
  destruct c as [[] [] [] [] [] [] [] []]; reflexivity.
Qed.

Lemma eqb_slash_refl : Ascii.eqb slash slash = true.
Proof. reflexivity. Qed.

Definition tail_re : re := RSeq (ROpt (RSeq (RLit slash) RAheadEnd)) RAheadSlashOrEnd.

Lemma tail_re_nonslash (c : ascii) (t : string) caps k :
  Ascii.eqb c slash = false -> rmatch tail_re (String c t) caps k = None.
Proof.
  intros Hc. simpl. rewrite ci_eqb_slash, Hc. reflexivity.
Qed.

Lemma tail_re_boundary (rest : string) caps k :
  boundary rest -> exists rest', rmatch tail_re rest caps k = k rest' caps.
Proof.
  intros [-> | [t ->]].
  - exists EmptyString. reflexivity.
  - destruct t as [|c t].
    + simpl. destruct (k EmptyString caps) eqn:E.
      * exists EmptyString. simpl. rewrite E. reflexivity.
      * exists (String slash EmptyString). reflexivity.
    + exists (String slash (String c t)). reflexivity.
Qed.

Lemma lazy_segment (x rest : string) caps k :
  segment x -> boundary rest ->
  (forall c t cs, Ascii.eqb c slash = false -> k (String c t) cs = None) ->
  lazy_not_slash k caps (x ++ rest) = k rest caps.
Proof.
  intros [Hne Hns] Hb Hk. revert Hne Hns.
  induction x as [|c x IH]; intros Hne Hns; [congruence|].
  simpl in Hns. apply andb_prop in Hns as [Hc Hns]. apply negb_true_iff in Hc.
  simpl. rewrite Hc. destruct x as [|c' x'].
  - simpl. destruct (k rest caps) eqn:E; [reflexivity|].
    destruct Hb as [-> | [t ->]]; reflexivity.
  - assert (Hc' : Ascii.eqb c' slash = false).
    { simpl in Hns. apply andb_prop in Hns as [Hc' _]. apply negb_true_iff. exact Hc'. }
    simpl. rewrite (Hk c' (x' ++ rest) caps Hc').
    apply IH; [discriminate | exact Hns].
Qed.

Lemma length_app (x y : string) :
  String.length (x ++ y) = String.length x + String.length y.
Proof. induction x as [|c x IH]; simpl; [reflexivity | now rewrite IH]. Qed.

Lemma append_nil_r (x : string) : x ++ EmptyString = x.
Proof. induction x as [|c x IH]; simpl; [reflexivity | now rewrite IH]. Qed.

Lemma consumed_app (x rest : string) : consumed (x ++ rest) rest = x.
Proof.
  unfold consumed. rewrite length_app, Nat.add_sub.
  induction x as [|c x IH]; simpl; [now destruct rest | now rewrite IH].
Qed.

Lemma ci_eqb_refl (c : ascii) : ci_eqb c c = true.
Proof. apply Ascii.eqb_refl. Qed.

Lemma exec_order (x rest : string) :
  segment x -> boundary rest ->
  exists rest', exec (tokens_to_regexp (parse "/order/:orderId") false)
                     ("/order/" ++ x ++ rest) = Some (rest', [x]).
Proof.
  intros Hx Hb.
  change (parse "/order/:orderId") with [TStr "/order"; TParam "orderId" "/"].
  unfold exec.
  cbn [tokens_to_regexp route_re fold_right strip_delim token_re lits rmatch append].
  rewrite !ci_eqb_refl. cbv beta iota.
  rewrite lazy_segment by
    (auto; intros c t cs Hc; cbv beta iota; rewrite ci_eqb_slash, Hc;
     cbv beta iota; rewrite ?Hc; reflexivity).
  rewrite consumed_app.
  destruct Hb as [-> | [[|c t] ->]]; eexists; reflexivity.
Qed.

Lemma match_order (x rest : string) :
  segment x -> boundary rest ->
  exists m, matchPath ("/order/" ++ x ++ rest) "/order/:orderId" false = Some m
            /\ lookup_param "orderId" (m_params m) = Some x.
Proof.
  intros Hx Hb. destruct (exec_order x rest Hx Hb) as [rest' E].
  unfold matchPath. rewrite E. eexists. split; reflexivity.
Qed.

Lemma rmatch_seq r1 r2 s caps k :
  rmatch (RSeq r1 r2) s caps k = rmatch r1 s caps (fun s' caps' => rmatch r2 s' caps' k).
Proof. reflexivity. Qed.

Lemma rmatch_eps s caps k : rmatch REps s caps k = k s caps.
Proof. reflexivity. Qed.

Lemma rmatch_lits (p s : string) caps k : rmatch (lits p) (p ++ s) caps k = k s caps.
Proof.
  revert caps k. induction p as [|c p IH]; intros caps k; [reflexivity|].
  cbn [lits append]. rewrite rmatch_seq. cbn [rmatch]. rewrite ci_eqb_refl. apply IH.
Qed.

(** A route path made of one literal that does not end in [/] matches, in
    non-exact mode, every pathname that extends it at a segment boundary. *)
Lemma match_literal (p rest : string) :
  parse p = [TStr p] -> ends_with_slash p = false -> boundary rest ->
  exists m, matchPath (p ++ rest) p false = Some m.
Proof.
  intros Hp He Hb. unfold matchPath. rewrite Hp. unfold exec, tokens_to_regexp.
  cbn [strip_delim]. rewrite He. cbn [route_re fold_right token_re].
  rewrite rmatch_seq, rmatch_seq, rmatch_lits. cbv beta.
  rewrite rmatch_eps. cbv beta.
  change (RSeq (ROpt (RSeq (RLit slash) RAheadEnd)) RAheadSlashOrEnd) with tail_re.
  destruct (tail_re_boundary rest [] (fun rest0 caps => Some (rest0, caps)) Hb) as [r' E].
  rewrite E. eexists. reflexivity.
Qed.

(** The exact route [/] does not match a pathname with more than one
    character after its leading [/]. *)
Lemma root_longer (c : ascii) (t : string) :
  matchPath (String slash (String c t)) "/" true = None.
Proof. reflexivity. Qed.

(** [switch_from] returns the first route of the list that matches. *)
Lemma switch_from_spec (p : string) (rs : list route) (i j : nat) r m :
  switch_from i p rs = Some (j, r, m) <->
  exists k, j = i + k /\ nth_error rs k = Some r
            /\ matchPath p (r_path r) (r_exact r) = Some m
            /\ forall k' r', k' < k -> nth_error rs k' = Some r' ->
                             matchPath p (r_path r') (r_exact r') = None.
Proof.
  revert i. induction rs as [|r0 rs IH]; intros i; simpl.
  - split; [discriminate|]. intros (k & _ & Hk & _). destruct k; discriminate.
  - destruct (matchPath p (r_path r0) (r_exact r0)) as [m0|] eqn:E0.
    + split.
      * intros H. injection H as <- <- <-. exists 0. repeat split; [lia|assumption|].
        intros k' r' Hk'. lia.
      * intros (k & -> & Hk & Hm & Hbefore). destruct k as [|k].
        -- simpl in Hk. injection Hk as <-. rewrite E0 in Hm. injection Hm as <-.
           f_equal. f_equal. f_equal. lia.
        -- specialize (Hbefore 0 r0 ltac:(lia) eq_refl). congruence.
    + rewrite IH. split.
      * intros (k & -> & Hk & Hm & Hbefore). exists (S k). repeat split; [lia|assumption|assumption|].
        intros [|k'] r' Hk' Hr'; simpl in Hr'.
        -- injection Hr' as <-. exact E0.
        -- apply (Hbefore k'); [lia|assumption].
      * intros (k & -> & Hk & Hm & Hbefore). destruct k as [|k].
        -- simpl in Hk. injection Hk as <-. congruence.
        -- exists k. repeat split; [lia|assumption|assumption|].
           intros k' r' Hk' Hr'. apply (Hbefore (S k')); [lia|assumption].
Qed.

Lemma switch_from_none (p : string) (rs : list route) (i : nat) :
  (forall r, In r rs -> matchPath p (r_path r) (r_exact r) = None) ->
  switch_from i p rs = None.
Proof.
  revert i. induction rs as [|r rs IH]; intros i H; [reflexivity|].
  simpl. rewrite (H r (or_introl eq_refl)). apply IH. intros r' Hr'. apply H. now right.
Qed.

Lemma render_order (x rest : string) :
  segment x -> boundary rest ->
  exists m, home_render (at_path ("/order/" ++ x ++ rest)) = Some (VComponent OrderPage m)
            /\ lookup_param "orderId" (m_params m) = Some x.
Proof.
  intros Hx Hb. destruct (match_order x rest Hx Hb) as (m & E & L).
  exists m. split; [|exact L].
  assert (H1 : matchPath ("/order/" ++ x ++ rest) "/" true = None) by reflexivity.
  assert (H2 : matchPath ("/order/" ++ x ++ rest) "/home" false = None) by reflexivity.
  assert (H3 : matchPath ("/order/" ++ x ++ rest) "/make" false = None) by reflexivity.
  assert (H4 : matchPath ("/order/" ++ x ++ rest) "/book" false = None) by reflexivity.
  unfold home_render, switch_select. cbn [switch_from routes r_path r_exact pathname at_path].
  rewrite H1, H2, H3, H4, E. reflexivity.
Qed.

Lemma parse_literal_home : parse "/home" = [TStr "/home"].
Proof. reflexivity. Qed.
Lemma parse_literal_make : parse "/make" = [TStr "/make"].
Proof. reflexivity. Qed.
Lemma parse_literal_book : parse "/book" = [TStr "/book"].
Proof. reflexivity. Qed.

Lemma render_home (rest : string) :
  boundary rest ->
  home_render (at_path ("/home" ++ rest)) = Some (VHtml "p" "You are at the start page").
Proof.
  intros Hb. destruct (match_literal "/home" rest parse_literal_home eq_refl Hb) as [m E].
  assert (H1 : matchPath ("/home" ++ rest) "/" true = None) by reflexivity.
  unfold home_render, switch_select. cbn [switch_from routes r_path r_exact pathname at_path].
  rewrite H1, E. reflexivity.
Qed.

Lemma render_make (rest : string) :
  boundary rest -> rendered_component ("/make" ++ rest) = Some MakerPage.
Proof.
  intros Hb. destruct (match_literal "/make" rest parse_literal_make eq_refl Hb) as [m E].
  assert (H1 : matchPath ("/make" ++ rest) "/" true = None) by reflexivity.
  assert (H2 : matchPath ("/make" ++ rest) "/home" false = None) by reflexivity.
  unfold rendered_component, home_render, switch_select.
  cbn [switch_from routes r_path r_exact pathname at_path].
  rewrite H1, H2, E. reflexivity.
Qed.

Lemma render_book (rest : string) :
  boundary rest -> rendered_component ("/book" ++ rest) = Some BookPage.
Proof.
  intros Hb. destruct (match_literal "/book" rest parse_literal_book eq_refl Hb) as [m E].
  assert (H1 : matchPath ("/book" ++ rest) "/" true = None) by reflexivity.
  assert (H2 : matchPath ("/book" ++ rest) "/home" false = None) by reflexivity.
  assert (H3 : matchPath ("/book" ++ rest) "/make" false = None) by reflexivity.
  unfold rendered_component, home_render, switch_select.
  cbn [switch_from routes r_path r_exact pathname at_path].
  rewrite H1, H2, H3, E. reflexivity.
Qed.

(** ** Claims *)

(** Route [i] of the table is the first one whose [matchPath] succeeds at
    [loc]. *)
Definition first_match (loc : location) (i : nat) (r : route) (m : match_) : Prop :=
  nth_error routes i = Some r
  /\ matchPath (pathname loc) (r_path r) (r_exact r) = Some m
  /\ forall j r', j < i -> nth_error routes j = Some r' ->
                  matchPath (pathname loc) (r_path r') (r_exact r') = None.

(** C1: the [Switch] selects route [i] exactly when it is the first route of
    the ordered table [/], [/home], [/make], [/book], [/order/:orderId] that
    matches the pathname, and that first match is unique: at most one route
    is active and rendered for a URL. *)
Theorem C1_first_match_wins (loc : location) :
  (forall i r m, switch_select loc routes = Some (i, r, m) <-> first_match loc i r m)
  /\ (forall i1 r1 m1 i2 r2 m2, first_match loc i1 r1 m1 -> first_match loc i2 r2 m2 ->
                                i1 = i2 /\ r1 = r2 /\ m1 = m2).
Proof.
  assert (Hspec : forall i r m,
             switch_select loc routes = Some (i, r, m) <-> first_match loc i r m).
  { intros i r m. unfold switch_select, first_match. rewrite switch_from_spec.
    split.
    - intros (k & -> & H). exact H.
    - intros H. exists i. split; [reflexivity | exact H]. }
  split; [exact Hspec|].
  intros i1 r1 m1 i2 r2 m2 H1 H2.
  apply Hspec in H1. apply Hspec in H2. rewrite H1 in H2. injection H2 as -> -> ->.
  repeat split.
Qed.

Lemma C1_witness : first_match (at_path "/book") 3
  {| r_path := "/book"; r_exact := false; r_elem := EComponent BookPage |}
  {| m_path := "/book"; m_url := "/book"; m_isExact := true; m_params := [] |}.
Proof.
  apply (proj1 (C1_first_match_wins (at_path "/book")) 3). reflexivity.
Defined.

(** C2: for a URL [/order/X] with [X] a non-empty segment, the Order view
    is rendered with the parameter [orderId] bound to [X]. *)
Theorem C2_order_view (x : string) :
  segment x ->
  exists m, home_render (at_path ("/order/" ++ x)) = Some (VComponent OrderPage m)
            /\ lookup_param "orderId" (m_params m) = Some x.
Proof.
  intros Hx. destruct (render_order x EmptyString Hx (or_introl eq_refl)) as (m & E & L).
  rewrite append_nil_r in E. exists m. split; assumption.
Qed.

Lemma C2_witness : exists m, home_render (at_path ("/order/" ++ "42")) = Some (VComponent OrderPage m)
                             /\ lookup_param "orderId" (m_params m) = Some "42".
Proof.
  apply (C2_order_view "42"). split; [discriminate | reflexivity].
Defined.

(** C3: the URL [/] renders the User Generation view, and the exact route
    [/] matches no longer pathname. *)
Theorem C3_root_exact :
  rendered_component "/" = Some UserGenPage
  /\ (forall c t, matchPath (String slash (String c t)) "/" true = None).
Proof.
  split; [reflexivity | exact root_longer].
Qed.

(** C4, as stated: every pathname whose text begins with [/home] renders the
    start-page text.  Refuted by [/homepage], which begins with [/home] but
    is matched by no route. *)
Lemma C4_counterexample :
  ~ (forall p, String.prefix "/home" p = true ->
               home_render (at_path p) = Some (VHtml "p" "You are at the start page")).
Proof.
  intros H. specialize (H "/homepage" eq_refl). vm_compute in H. discriminate H.
Qed.

(** C4, amended: the pathname [/home], and every pathname that continues
    [/home] with a further [/] (a segment boundary), renders the static
    [<p>You are at the start page</p>] and no page component. *)
Theorem C4_home_segment (rest : string) :
  boundary rest ->
  home_render (at_path ("/home" ++ rest)) = Some (VHtml "p" "You are at the start page").
Proof. exact (render_home rest). Qed.

Lemma C4_witness :
  home_render (at_path ("/home" ++ "/x")) = Some (VHtml "p" "You are at the start page").
Proof.
  apply (C4_home_segment "/x"). right. exists "x". reflexivity.
Defined.

(** C5: the URL [/make] renders the Maker view. *)
Theorem C5_make_view : rendered_component "/make" = Some MakerPage.
Proof. reflexivity. Qed.

(** C6: the URL [/book] renders the Book view. *)
Theorem C6_book_view : rendered_component "/book" = Some BookPage.
Proof. reflexivity. Qed.

(** C7: when no route of the table matches the pathname, nothing is
    rendered. *)
Theorem C7_no_match_no_view (loc : location) :
  (forall r, In r routes -> matchPath (pathname loc) (r_path r) (r_exact r) = None) ->
  home_render loc = None.
Proof.
  intros H. unfold home_render, switch_select. rewrite (switch_from_none _ _ 0 H).
  reflexivity.
Qed.

Lemma C7_witness : home_render (at_path "/about") = None.
Proof.
  apply C7_no_match_no_view. intros r Hr.
  repeat (destruct Hr as [<- | Hr]; [reflexivity|]). destruct Hr.
Defined.

(** C8: [/make], [/book] and [/order/:orderId] are not exact: a pathname
    that extends them with further segments still renders their view, the
    Order view with [orderId] bound to the segment right after [/order/]. *)
Theorem C8_prefix_routes :
  (forall rest, boundary rest -> rendered_component ("/make" ++ rest) = Some MakerPage)
  /\ (forall rest, boundary rest -> rendered_component ("/book" ++ rest) = Some BookPage)
  /\ (forall x rest, segment x -> boundary rest ->
      exists m, home_render (at_path ("/order/" ++ x ++ rest)) = Some (VComponent OrderPage m)
                /\ lookup_param "orderId" (m_params m) = Some x).
Proof.
  split; [exact render_make|]. split; [exact render_book|]. exact render_order.
Qed.

Lemma C8_witness :
  rendered_component ("/make" ++ "/extra") = Some MakerPage
  /\ rendered_component ("/book" ++ "/x/y") = Some BookPage
  /\ exists m, home_render (at_path ("/order/" ++ "42" ++ "/detail")) = Some (VComponent OrderPage m)
               /\ lookup_param "orderId" (m_params m) = Some "42".
Proof.
  destruct C8_prefix_routes as (Hm & Hb & Ho).
  split; [apply Hm; right; exists "extra"; reflexivity|].
  split; [apply Hb; right; exists "x/y"; reflexivity|].
  apply Ho; [split; [discriminate | reflexivity] | right; exists "detail"; reflexivity].
Defined.

(** C9: [/order] and [/order/] are not matched by [/order/:orderId] (the
    parameter needs a non-empty segment), nor by any other route: nothing
    is rendered. *)
Theorem C9_order_without_id :
  matchPath "/order" "/order/:orderId" false = None
  /\ matchPath "/order/" "/order/:orderId" false = None
  /\ home_render (at_path "/order") = None
  /\ home_render (at_path "/order/") = None.
Proof. repeat split. Qed.

(** C10: the dispatch reads only [location.pathname]: two locations with the
    same pathname select the same route with the same match (and so the
    same bound parameters) and render the same view. *)
Theorem C10_pathname_only (loc1 loc2 : location) :
  pathname loc1 = pathname loc2 ->
  switch_select loc1 routes = switch_select loc2 routes
  /\ home_render loc1 = home_render loc2.
Proof.
  intros H. unfold home_render, switch_select. rewrite H. split; reflexivity.
Qed.

Lemma C10_witness :
  switch_select {| pathname := "/order/7"; search := "?a=1"; hash := "" |} routes
  = switch_select {| pathname := "/order/7"; search := ""; hash := "#top" |} routes
  /\ home_render {| pathname := "/order/7"; search := "?a=1"; hash := "" |}
     = home_render {| pathname := "/order/7"; search := ""; hash := "#top" |}.
Proof. apply C10_pathname_only. reflexivity. Defined.

(** ** Further properties of the route table *)

Lemma rmatch_head2 a b q Y Z s caps k :
  rmatch (RSeq (RSeq (lits (String a (String b q))) Y) Z) s caps k <> None ->
  exists d e t, s = String d (String e t) /\ ci_eqb a d = true /\ ci_eqb b e = true.
Proof.
  intros H. destruct s as [|d [|e t]]; cbn [lits rmatch] in H.
  - congruence.
  - destruct (ci_eqb a d); congruence.
  - destruct (ci_eqb a d) eqn:Ea; [|congruence].
    destruct (ci_eqb b e) eqn:Eb; [|congruence].
    exists d, e, t. auto.
Qed.

Lemma matchPath_exec p path ex m :
  matchPath p path ex = Some m -> exec (tokens_to_regexp (parse path) ex) p <> None.
Proof.
  unfold matchPath. destruct (exec _ p) as [[rest vs]|]; [discriminate | discriminate].
Qed.

Lemma root_match_iff (p : string) :
  matchPath p "/" true <> None <-> p = EmptyString \/ p = "/".
Proof.
  split.
  - intros H. destruct p as [|d [|e t]]; [now left| |].
    + unfold matchPath, exec in H. cbn -[ci_eqb] in H.
      destruct (ci_eqb slash d) eqn:E; [|cbn in H; congruence].
      rewrite ci_eqb_slash in E. apply Ascii.eqb_eq in E. subst d. now right.
    + unfold matchPath, exec in H. cbn -[ci_eqb] in H.
      destruct (ci_eqb slash d); cbn in H; congruence.
  - intros [-> | ->]; discriminate.
Qed.

(** The character that follows the leading [/] in the path of each route
    after the first one. *)
Lemma route_second_char (i : nat) r p m :
  nth_error routes i = Some r -> matchPath p (r_path r) (r_exact r) = Some m ->
  (i = 0 /\ (p = EmptyString \/ p = "/"))
  \/ exists c d e t, nth_error ["h"; "m"; "b"; "o"]%char (i - 1) = Some c /\ i <> 0
                     /\ p = String d (String e t) /\ ci_eqb c e = true.
Proof.
  intros Hr Hm.
  destruct i as [|[|[|[|[|i]]]]]; simpl in Hr; try (destruct i; discriminate);
    injection Hr as <-; cbn [r_path r_exact] in Hm.
  - left. split; [reflexivity|]. apply root_match_iff. congruence.
  - apply matchPath_exec in Hm. unfold exec in Hm.
    change (tokens_to_regexp (parse "/home") false)
      with (RSeq (RSeq (lits "/home") REps) tail_re) in Hm.
    destruct (rmatch_head2 _ _ _ _ _ _ _ _ Hm) as (d & e & t & -> & _ & He).
    right. exists "h"%char, d, e, t. repeat split; [discriminate|exact He].
  - apply matchPath_exec in Hm. unfold exec in Hm.
    change (tokens_to_regexp (parse "/make") false)
      with (RSeq (RSeq (lits "/make") REps) tail_re) in Hm.
    destruct (rmatch_head2 _ _ _ _ _ _ _ _ Hm) as (d & e & t & -> & _ & He).
    right. exists "m"%char, d, e, t. repeat split; [discriminate|exact He].
  - apply matchPath_exec in Hm. unfold exec in Hm.
    change (tokens_to_regexp (parse "/book") false)
      with (RSeq (RSeq (lits "/book") REps) tail_re) in Hm.
    destruct (rmatch_head2 _ _ _ _ _ _ _ _ Hm) as (d & e & t & -> & _ & He).
    right. exists "b"%char, d, e, t. repeat split; [discriminate|exact He].
  - apply matchPath_exec in Hm. unfold exec in Hm.
    change (tokens_to_regexp (parse "/order/:orderId") false)
      with (RSeq (RSeq (lits "/order") (RSeq (RSeq (lits "/") (RCap RNotSlashLazy)) REps))
                 tail_re) in Hm.
    destruct (rmatch_head2 _ _ _ _ _ _ _ _ Hm) as (d & e & t & -> & _ & He).
    right. exists "o"%char, d, e, t. repeat split; [discriminate|exact He].
Qed.

Lemma routes_disjoint_aux (p : string) (i j : nat) ri rj mi mj :
  nth_error routes i = Some ri -> matchPath p (r_path ri) (r_exact ri) = Some mi ->
  nth_error routes j = Some rj -> matchPath p (r_path rj) (r_exact rj) = Some mj ->
  i = j.
Proof.
  intros Hi Hmi Hj Hmj.
  pose proof (route_second_char j rj p mj Hj Hmj) as Hsj.
  destruct (route_second_char i ri p mi Hi Hmi) as [[-> Hp] | (c & d & e & t & Hc & Hi0 & -> & He)];
  destruct Hsj as [[-> Hq] | (c' & d' & e' & t' & Hc' & Hj0 & Hp' & He')].
  - reflexivity.
  - destruct Hp as [-> | ->]; discriminate.
  - destruct Hq as [H | H]; discriminate.
  - injection Hp' as <- <- <-.
    apply Ascii.eqb_eq in He. apply Ascii.eqb_eq in He'. rewrite <- He' in He.
    destruct i as [|[|[|[|[|i]]]]]; try lia; try (destruct i; discriminate);
    destruct j as [|[|[|[|[|j]]]]]; try lia; try (destruct j; discriminate);
    simpl in Hc, Hc'; injection Hc as <-; injection Hc' as <-;
    solve [reflexivity | discriminate He].
Qed.

(** X1: the five routes are pairwise disjoint: no pathname is matched by
    two different routes of the table, so the order of the table never
    decides between two matching routes. *)
Theorem routes_disjoint (p : string) (i j : nat) ri rj mi mj :
  nth_error routes i = Some ri -> matchPath p (r_path ri) (r_exact ri) = Some mi ->
  nth_error routes j = Some rj -> matchPath p (r_path rj) (r_exact rj) = Some mj ->
  i = j.
Proof. exact (routes_disjoint_aux p i j ri rj mi mj). Qed.

Lemma routes_disjoint_witness : 3 = 3.
Proof.
  apply (routes_disjoint "/book" 3 3
           {| r_path := "/book"; r_exact := false; r_elem := EComponent BookPage |}
           {| r_path := "/book"; r_exact := false; r_elem := EComponent BookPage |}
           {| m_path := "/book"; m_url := "/book"; m_isExact := true; m_params := [] |}
           {| m_path := "/book"; m_url := "/book"; m_isExact := true; m_params := [] |});
    reflexivity.
Defined.

(** What is rendered comes from a route of the table that matches. *)
Lemma home_render_inv (loc : location) (v : view) :
  home_render loc = Some v ->
  exists i r m, nth_error routes i = Some r
                /\ matchPath (pathname loc) (r_path r) (r_exact r) = Some m
                /\ v = render_route r m.
Proof.
  unfold home_render. destruct (switch_select loc routes) as [[[i r] m]|] eqn:E;
    [|discriminate].
  intros H. injection H as <-. unfold switch_select in E. apply switch_from_spec in E.
  destruct E as (k & -> & Hk & Hm & _). exists k, r, m. auto.
Qed.

(** X2: the User Generation view is rendered exactly for the pathnames [/]
    and the empty pathname. *)
Theorem usergen_iff_root (loc : location) :
  (exists m, home_render loc = Some (VComponent UserGenPage m))
  <-> pathname loc = EmptyString \/ pathname loc = "/".
Proof.
  split.
  - intros [m Hv]. apply home_render_inv in Hv as (i & r & m' & Hr & Hm & Hv).
    destruct i as [|[|[|[|[|i]]]]]; simpl in Hr; try (destruct i; discriminate);
      injection Hr as <-; try discriminate Hv.
    apply root_match_iff. cbn [r_path r_exact] in Hm. congruence.
  - intros Hp. unfold home_render, switch_select. cbn [switch_from routes r_path r_exact].
    destruct (matchPath (pathname loc) "/" true) as [m|] eqn:E.
    + exists m. reflexivity.
    + exfalso. apply (proj2 (root_match_iff (pathname loc)) Hp). exact E.
Qed.

Lemma usergen_iff_root_witness :
  exists m, home_render (at_path "/") = Some (VComponent UserGenPage m).
Proof. apply (usergen_iff_root (at_path "/")). right. reflexivity. Defined.

(** A successful match of a regular expression without captures ends in
    one call of its continuation, with the captures unchanged. *)
Lemma rmatch_no_cap (r : re) s caps k res :
  no_cap r = true -> rmatch r s caps k = Some res -> exists s', k s' caps = Some res.
Proof.
  revert s k. induction r; intros s k Hn H; simpl in Hn, H.
  - eauto.
  - destruct s as [|d s']; [discriminate|]. destruct (ci_eqb c d); [eauto|discriminate].
  - apply andb_prop in Hn as [H1 H2].
    destruct (IHr1 _ _ H1 H) as [s1 E1]. exact (IHr2 _ _ H2 E1).
  - induction s as [|d s IH]; simpl in H; [discriminate|].
    destruct (Ascii.eqb d slash); [discriminate|].
    destruct (k s caps) eqn:E; [injection H as ->; eauto | eauto].
  - discriminate.
  - destruct (rmatch r s caps k) eqn:E; [injection H as ->; eauto | eauto].
  - destruct s; [eauto | discriminate].
  - destruct s as [|d s']; [eauto|]. destruct (Ascii.eqb d slash); [eauto|discriminate].
  - destruct s; [eauto | discriminate].
Qed.

(** [[^\/]+?] succeeds only after reading a non-empty run of characters
    other than [/]. *)
Lemma lazy_not_slash_inv k caps t res :
  lazy_not_slash k caps t = Some res ->
  exists x t', t = x ++ t' /\ segment x /\ k t' caps = Some res.
Proof.
  induction t as [|d t IH]; simpl; [discriminate|].
  destruct (Ascii.eqb d slash) eqn:Ed; [discriminate|].
  destruct (k t caps) eqn:E.
  - intros H. injection H as ->. exists (String d EmptyString), t.
    split; [reflexivity|]. split; [|exact E]. split; [discriminate|]. simpl. now rewrite Ed.
  - intros H. destruct (IH H) as (x & t' & -> & [Hne Hns] & Hk).
    exists (String d x), t'. split; [reflexivity|]. split; [|exact Hk].
    split; [discriminate|]. simpl. now rewrite Ed, Hns.
Qed.

Lemma exec_order_inv (p rest : string) values :
  exec (tokens_to_regexp (parse "/order/:orderId") false) p = Some (rest, values) ->
  exists x, values = [x] /\ segment x.
Proof.
  unfold exec.
  change (tokens_to_regexp (parse "/order/:orderId") false)
    with (RSeq (RSeq (lits "/order") (RSeq (RSeq (lits "/") (RCap RNotSlashLazy)) REps))
               tail_re).
  rewrite !rmatch_seq. intros H.
  apply rmatch_no_cap in H as [s1 H]; [|reflexivity]. cbv beta in H.
  rewrite !rmatch_seq in H.
  apply rmatch_no_cap in H as [s2 H]; [|reflexivity]. cbv beta in H.
  cbn [rmatch] in H. apply lazy_not_slash_inv in H as (x & t' & -> & Hx & H).
  cbv beta in H. rewrite consumed_app in H. cbv beta in H.
  apply rmatch_no_cap in H as [s3 H]; [|reflexivity].
  injection H as _ <-. exists x. split; [reflexivity | exact Hx].
Qed.

Lemma matchPath_params (p path : string) ex m :
  matchPath p path ex = Some m ->
  exists rest vs, exec (tokens_to_regexp (parse path) ex) p = Some (rest, vs)
                  /\ m_params m = combine (keys (parse path)) vs.
Proof.
  unfold matchPath. destruct (exec _ p) as [[rest vs]|]; [|discriminate].
  destruct (ex && _); [discriminate|]. intros H. injection H as <-. eauto.
Qed.

(** X3: whenever the Order view is rendered, its [params] hold exactly the
    key [orderId], bound to a non-empty string without [/]. *)
Theorem order_param_segment (loc : location) (m : match_) :
  home_render loc = Some (VComponent OrderPage m) ->
  exists x, m_params m = [("orderId", x)] /\ segment x.
Proof.
  intros Hv. apply home_render_inv in Hv as (i & r & m' & Hr & Hm & Hv).
  destruct i as [|[|[|[|[|i]]]]]; simpl in Hr; try (destruct i; discriminate);
    injection Hr as <-; try discriminate Hv.
  injection Hv as <-. cbn [r_path r_exact] in Hm.
  apply matchPath_params in Hm as (rest & vs & E & ->).
  apply exec_order_inv in E as (x & -> & Hx). exists x. split; [reflexivity | exact Hx].
Qed.

Lemma order_param_segment_witness :
  exists x, m_params {| m_path := "/order/:orderId"; m_url := "/order/7"; m_isExact := true;
                        m_params := [("orderId", "7")] |} = [("orderId", x)] /\ segment x.
Proof.
  apply (order_param_segment (at_path "/order/7")). reflexivity.
Defined.

(** X4: the User Generation, Maker and Book views receive a match without
    any parameter. *)
Theorem non_order_no_params (loc : location) (c : component) (m : match_) :
  home_render loc = Some (VComponent c m) -> c <> OrderPage -> m_params m = [].
Proof.
  intros Hv Hc. apply home_render_inv in Hv as (i & r & m' & Hr & Hm & Hv).
  destruct i as [|[|[|[|[|i]]]]]; simpl in Hr; try (destruct i; discriminate);
    injection Hr as <-; try discriminate Hv; injection Hv as Ec Em; subst c m;
    try (exfalso; now apply Hc);
    cbn [r_path r_exact] in Hm; apply matchPath_params in Hm as (rest & vs & _ & ->);
    reflexivity.
Qed.

Lemma non_order_no_params_witness :
  m_params {| m_path := "/make"; m_url := "/make"; m_isExact := false; m_params := [] |} = [].
Proof.
  apply (non_order_no_params (at_path "/make/x") MakerPage); [reflexivity | discriminate].
Defined.

Lemma upper_idem (d : ascii) : upper (upper d) = upper d.
Proof. destruct d as [[] [] [] [] [] [] [] []]; reflexivity. Qed.

Lemma upper_slash (d : ascii) : Ascii.eqb (upper d) slash = Ascii.eqb d slash.
Proof. destruct d as [[] [] [] [] [] [] [] []]; reflexivity. Qed.

Lemma ci_eqb_upper (c d : ascii) : ci_eqb c (upper d) = ci_eqb c d.
Proof. unfold ci_eqb. now rewrite upper_idem. Qed.

Lemma rmatch_upper (r : re) s c1 c2 k1 k2 :
  (forall t d1 d2, rel_res (k1 t d1) (k2 (upper_str t) d2)) ->
  rel_res (rmatch r s c1 k1) (rmatch r (upper_str s) c2 k2).
Proof.
  revert s c1 c2 k1 k2.
  induction r; intros s c1 c2 k1 k2 Hk; simpl.
  - apply Hk.
  - destruct s as [|d s']; simpl; [exact I|]. rewrite ci_eqb_upper.
    destruct (ci_eqb c d); [apply Hk | exact I].
  - apply IHr1. intros t d1 d2. apply IHr2. exact Hk.
  - induction s as [|d s IH]; simpl; [exact I|]. rewrite upper_slash.
    destruct (Ascii.eqb d slash); [exact I|].
    specialize (Hk s c1 c2).
    destruct (k1 s c1) as [[t1 v1]|]; destruct (k2 (upper_str s) c2) as [[t2 v2]|];
      simpl in Hk; solve [exact Hk | contradiction | exact IH].
  - apply IHr. intros t d1 d2. apply Hk.
  - specialize (IHr s c1 c2 k1 k2 Hk).
    destruct (rmatch r s c1 k1) as [[t1 v1]|]; destruct (rmatch r (upper_str s) c2 k2) as [[t2 v2]|];
      simpl in IHr; solve [exact IHr | contradiction | apply Hk].
  - destruct s; simpl; [apply Hk | exact I].
  - destruct s as [|d s']; simpl; [apply Hk|]. rewrite upper_slash.
    destruct (Ascii.eqb d slash); [apply (Hk (String d s')) | exact I].
  - destruct s; simpl; [apply Hk | exact I].
Qed.

Lemma exec_upper (r : re) (s : string) :
  rel_res (exec r s) (exec r (upper_str s)).
Proof. apply rmatch_upper. intros t d1 d2. reflexivity. Qed.

Lemma length_upper_str (s : string) : String.length (upper_str s) = String.length s.
Proof. induction s as [|c s IH]; simpl; [reflexivity | now rewrite IH]. Qed.

Lemma eqb_prefix (p : string) (n : nat) :
  String.eqb p (substring 0 n p) = Nat.leb (String.length p) n.
Proof.
  revert n. induction p as [|c p IH]; intros [|n]; simpl; try reflexivity.
  rewrite Ascii.eqb_refl. apply IH.
Qed.

Lemma matchPath_upper (p path : string) (ex : bool) :
  matchPath (upper_str p) path ex = None <-> matchPath p path ex = None.
Proof.
  unfold matchPath. pose proof (exec_upper (tokens_to_regexp (parse path) ex) p) as H.
  destruct (exec _ p) as [[t1 v1]|]; destruct (exec _ (upper_str p)) as [[t2 v2]|];
    simpl in H; try contradiction; [|tauto].
  subst t2. unfold consumed. rewrite !eqb_prefix, !length_upper_str.
  destruct (ex && _); split; intros E; solve [reflexivity | discriminate E].
Qed.

Lemma switch_from_upper (p : string) (rs : list route) (i : nat) :
  match switch_from i (upper_str p) rs, switch_from i p rs with
  | Some (j1, r1, _), Some (j2, r2, _) => j1 = j2 /\ r1 = r2
  | None, None => True
  | _, _ => False
  end.
Proof.
  revert i. induction rs as [|r rs IH]; intros i; simpl; [exact I|].
  pose proof (matchPath_upper p (r_path r) (r_exact r)) as H.
  destruct (matchPath (upper_str p) (r_path r) (r_exact r));
    destruct (matchPath p (r_path r) (r_exact r)).
  - split; reflexivity.
  - exfalso. destruct H as [_ H]. specialize (H eq_refl). discriminate H.
  - exfalso. destruct H as [H _]. specialize (H eq_refl). discriminate H.
  - apply IH.
Qed.

Lemma selection_upper (loc1 loc2 : location) :
  upper_str (pathname loc1) = upper_str (pathname loc2) ->
  selected loc1 = selected loc2.
Proof.
  intros H. unfold selected, switch_select.
  pose proof (switch_from_upper (pathname loc1) routes 0) as H1.
  pose proof (switch_from_upper (pathname loc2) routes 0) as H2.
  rewrite H in H1.
  destruct (switch_from 0 (upper_str (pathname loc2)) routes) as [[[j r] m]|];
  destruct (switch_from 0 (pathname loc1) routes) as [[[j1 r1] m1]|];
  destruct (switch_from 0 (pathname loc2) routes) as [[[j2 r2] m2]|];
    try contradiction; [|reflexivity].
  destruct H1 as [<- <-]. destruct H2 as [<- <-]. reflexivity.
Qed.

(** X5: route selection ignores letter case: two pathnames that agree up to
    the case of their ASCII letters (such as [/MAKE] and [/make], or
    [/Order/A1] and [/order/a1]) select the same route of the table. *)
Theorem selection_case_insensitive (loc1 loc2 : location) :
  upper_str (pathname loc1) = upper_str (pathname loc2) ->
  selected loc1 = selected loc2.
Proof. exact (selection_upper loc1 loc2). Qed.

Lemma selection_case_insensitive_witness :
  selected (at_path "/MAKE/Extra") = selected (at_path "/make/extra").
Proof. apply selection_case_insensitive. reflexivity. Defined.

Lemma upper_str_app (x y : string) : upper_str (x ++ y) = upper_str x ++ upper_str y.
Proof. induction x as [|c x IH]; simpl; [reflexivity | now rewrite IH]. Qed.

Lemma rmatch_lits_inv (q s : string) caps k res :
  rmatch (lits q) s caps k = Some res ->
  exists s1 s2, s = s1 ++ s2 /\ upper_str s1 = upper_str q /\ k s2 caps = Some res.
Proof.
  revert s. induction q as [|c q IH]; intros s H.
  - exists EmptyString, s. auto.
  - cbn [lits] in H. rewrite rmatch_seq in H. cbn [rmatch] in H.
    destruct s as [|d s']; [discriminate|].
    destruct (ci_eqb c d) eqn:E; [|discriminate].
    destruct (IH s' H) as (s1 & s2 & -> & Hu & Hk).
    exists (String d s1), s2. split; [reflexivity|]. split; [|exact Hk].
    simpl. rewrite Hu. unfold ci_eqb in E. apply Ascii.eqb_eq in E. now rewrite E.
Qed.

Lemma tail_re_inv (s : string) caps k res :
  rmatch tail_re s caps k = Some res -> boundary s.
Proof.
  destruct s as [|d s']; intros H; [now left|].
  cbn [tail_re rmatch] in H. rewrite ci_eqb_slash in H.
  destruct (Ascii.eqb d slash) eqn:E.
  - apply Ascii.eqb_eq in E. subst d. right. eauto.
  - destruct s'; discriminate H.
Qed.

(** The index and route chosen by the [Switch] when route [i] matches:
    earlier routes cannot match, the table being disjoint. *)
Lemma selected_of_match (p : string) (i : nat) r m :
  nth_error routes i = Some r -> matchPath p (r_path r) (r_exact r) = Some m ->
  selected (at_path p) = Some (i, r).
Proof.
  intros Hr Hm. unfold selected, switch_select.
  assert (H : switch_from 0 p routes = Some (i, r, m)).
  { apply switch_from_spec. exists i. repeat split; [exact Hr | exact Hm |].
    intros j rj Hj Hrj. destruct (matchPath p (r_path rj) (r_exact rj)) as [mj|] eqn:E;
      [|reflexivity].
    pose proof (routes_disjoint_aux p i j r rj m mj Hr Hm Hrj E). lia. }
  cbn [pathname at_path]. rewrite H. reflexivity.
Qed.

Lemma literal_entries (i : nat) (r : route) :
  1 <= i <= 3 -> nth_error routes i = Some r ->
  parse (r_path r) = [TStr (r_path r)] /\ ends_with_slash (r_path r) = false
  /\ r_exact r = false.
Proof.
  intros Hi Hr. destruct i as [|[|[|[|i]]]]; try lia; simpl in Hr; injection Hr as <-;
    repeat split.
Qed.

Lemma literal_regexp (q : string) :
  ends_with_slash q = false ->
  tokens_to_regexp [TStr q] false = RSeq (RSeq (lits q) REps) tail_re.
Proof. intros He. unfold tokens_to_regexp. cbn [strip_delim]. now rewrite He. Qed.

Lemma literal_match_inv (p q : string) m :
  parse q = [TStr q] -> ends_with_slash q = false -> matchPath p q false = Some m ->
  exists h rest, p = h ++ rest /\ upper_str h = upper_str q /\ boundary rest.
Proof.
  intros Hp He Hm. apply matchPath_params in Hm as (rest & vs & E & _).
  rewrite Hp, (literal_regexp q He) in E. unfold exec in E.
  rewrite !rmatch_seq in E.
  apply rmatch_lits_inv in E as (h & rest' & -> & Hu & E).
  cbv beta in E. rewrite rmatch_eps in E. apply tail_re_inv in E.
  exists h, rest'. auto.
Qed.

(** X6: each of the routes [/home], [/make] and [/book] is selected exactly
    for the pathnames made of its path, up to the case of ASCII letters,
    followed by nothing or by [/] and further characters. *)
Theorem literal_route_iff (loc : location) (i : nat) (r : route) :
  1 <= i <= 3 -> nth_error routes i = Some r ->
  (selected loc = Some (i, r)
   <-> exists h rest, pathname loc = h ++ rest /\ upper_str h = upper_str (r_path r)
                      /\ boundary rest).
Proof.
  intros Hi Hr. destruct (literal_entries i r Hi Hr) as (Hp & He & Hx).
  split.
  - unfold selected. destruct (switch_select loc routes) as [[[j r'] m]|] eqn:E;
      [|discriminate].
    intros H. injection H as -> ->.
    unfold switch_select in E. apply switch_from_spec in E as (k & Hk & Hr' & Hm & _).
    rewrite Hx in Hm. exact (literal_match_inv _ _ m Hp He Hm).
  - intros (h & rest & Hl & Hu & Hb).
    destruct (match_literal (r_path r) rest Hp He Hb) as [m Hm].
    rewrite <- Hx in Hm.
    rewrite <- (selected_of_match _ i r m Hr Hm).
    apply selection_upper. cbn [pathname at_path].
    rewrite Hl, !upper_str_app, Hu. reflexivity.
Qed.

Lemma literal_route_iff_witness :
  selected (at_path "/Home/x")
  = Some (1, {| r_path := "/home"; r_exact := false;
                r_elem := EHtml "p" "You are at the start page" |}).
Proof.
  apply (literal_route_iff (at_path "/Home/x") 1); [lia | reflexivity |].
  exists "/Home", "/x". split; [reflexivity|]. split; [reflexivity|].
  right. exists "x". reflexivity.
Defined.

Lemma append_assoc_str (x y z : string) : x ++ (y ++ z) = (x ++ y) ++ z.
Proof. induction x as [|c x IH]; simpl; [reflexivity | now rewrite IH]. Qed.

Lemma order_match_inv (p : string) m :
  matchPath p "/order/:orderId" false = Some m ->
  exists h x rest, p = h ++ x ++ rest /\ upper_str h = "/ORDER/" /\ segment x
                   /\ boundary rest /\ m_params m = [("orderId", x)].
Proof.
  intros Hm. apply matchPath_params in Hm as (rest & vs & E & ->). unfold exec in E.
  change (tokens_to_regexp (parse "/order/:orderId") false)
    with (RSeq (RSeq (lits "/order") (RSeq (RSeq (lits "/") (RCap RNotSlashLazy)) REps))
               tail_re) in E.
  rewrite !rmatch_seq in E.
  apply rmatch_lits_inv in E as (h1 & s1 & -> & Hu1 & E). cbv beta in E.
  rewrite !rmatch_seq in E.
  apply rmatch_lits_inv in E as (h2 & s2 & -> & Hu2 & E). cbv beta in E.
  cbn [rmatch] in E. apply lazy_not_slash_inv in E as (x & t & -> & Hx & E).
  cbv beta in E. rewrite consumed_app in E. pose proof (tail_re_inv _ _ _ _ E) as Hb.
  apply rmatch_no_cap in E as [s3 E]; [|reflexivity]. injection E as _ <-.
  exists (h1 ++ h2), x, t. split; [now rewrite append_assoc_str|].
  split; [rewrite upper_str_app, Hu1, Hu2; reflexivity|]. split; [assumption|].
  split; [assumption | reflexivity].
Qed.

Lemma upper_str_empty (h : string) : upper_str h = EmptyString -> h = EmptyString.
Proof. destruct h; [reflexivity | discriminate]. Qed.

(** A literal matches any input that starts with it up to letter case. *)
Lemma rmatch_lits_ci (q h s : string) caps k :
  upper_str h = upper_str q -> rmatch (lits q) (h ++ s) caps k = k s caps.
Proof.
  revert h caps k. induction q as [|c q IH]; intros h caps k Hu.
  - simpl in Hu. apply upper_str_empty in Hu. subst h. reflexivity.
  - destruct h as [|d h]; [discriminate|]. simpl in Hu. injection Hu as Hc Hu.
    cbn [lits append]. rewrite rmatch_seq. cbn [rmatch].
    assert (E : ci_eqb c d = true) by (unfold ci_eqb; rewrite Hc; apply Ascii.eqb_refl).
    rewrite E. apply IH. exact Hu.
Qed.

Lemma exec_order_ci (h x rest : string) :
  upper_str h = "/ORDER/" -> segment x -> boundary rest ->
  exists rest', exec (tokens_to_regexp (parse "/order/:orderId") false) (h ++ x ++ rest)
                = Some (rest', [x]).
Proof.
  intros Hh Hx Hb.
  change (exec (tokens_to_regexp (parse "/order/:orderId") false) (h ++ x ++ rest))
    with (rmatch (lits "/order/") (h ++ x ++ rest) []
            (fun s c => rmatch (RCap RNotSlashLazy) s c
                          (fun s' c' => rmatch tail_re s' c' (fun r v => Some (r, v))))).
  rewrite rmatch_lits_ci by exact Hh. cbn [rmatch].
  rewrite lazy_segment by
    (auto; intros c t cs Hc; apply tail_re_nonslash; exact Hc).
  rewrite consumed_app. cbn [app].
  destruct (tail_re_boundary rest [x] (fun r v => Some (r, v)) Hb) as [r' E].
  rewrite E. eauto.
Qed.

Lemma home_render_of_match (p : string) (i : nat) r m :
  nth_error routes i = Some r -> matchPath p (r_path r) (r_exact r) = Some m ->
  home_render (at_path p) = Some (render_route r m).
Proof.
  intros Hr Hm. unfold home_render, switch_select.
  assert (H : switch_from 0 p routes = Some (i, r, m)).
  { apply switch_from_spec. exists i. repeat split; [exact Hr | exact Hm |].
    intros j rj Hj Hrj. destruct (matchPath p (r_path rj) (r_exact rj)) as [mj|] eqn:E;
      [|reflexivity].
    pose proof (routes_disjoint_aux p i j r rj m mj Hr Hm Hrj E). lia. }
  cbn [pathname at_path]. rewrite H. reflexivity.
Qed.

(** X7: the Order view is rendered with [orderId] bound to [x] exactly
    when the pathname is [/order/] (up to the case of ASCII letters),
    followed by the non-empty segment [x], followed by nothing or by [/]
    and further characters. *)
Theorem order_route_iff (loc : location) (x : string) :
  (exists m, home_render loc = Some (VComponent OrderPage m)
             /\ lookup_param "orderId" (m_params m) = Some x)
  <-> exists h rest, pathname loc = h ++ x ++ rest /\ upper_str h = "/ORDER/"
                     /\ segment x /\ boundary rest.
Proof.
  split.
  - intros (m & Hv & Hx). apply home_render_inv in Hv as (i & r & m' & Hr & Hm & Hv).
    destruct i as [|[|[|[|[|i]]]]]; simpl in Hr; try (destruct i; discriminate);
      injection Hr as <-; try discriminate Hv.
    injection Hv as <-. cbn [r_path r_exact] in Hm.
    apply order_match_inv in Hm as (h & x' & rest & Hp & Hh & Hs & Hb & Hps).
    rewrite Hps in Hx. simpl in Hx. injection Hx as ->. eauto 10.
  - intros (h & rest & Hp & Hh & Hs & Hb).
    destruct (exec_order_ci h x rest Hh Hs Hb) as [rest' E].
    assert (Hm : exists m, matchPath (h ++ x ++ rest) "/order/:orderId" false = Some m
                           /\ m_params m = [("orderId", x)]).
    { unfold matchPath. rewrite E. eexists. split; reflexivity. }
    destruct Hm as (m & Hm & Hps). exists m.
    change (home_render loc) with (home_render (at_path (pathname loc))).
    rewrite Hp, (home_render_of_match _ 4 _ m eq_refl Hm). rewrite Hps.
    split; reflexivity.
Qed.

Lemma order_route_iff_witness :
  exists m, home_render (at_path "/ORDER/Ab3/x") = Some (VComponent OrderPage m)
            /\ lookup_param "orderId" (m_params m) = Some "Ab3".
Proof.
  apply (order_route_iff (at_path "/ORDER/Ab3/x") "Ab3").
  exists "/ORDER/", "/x". split; [reflexivity|]. split; [reflexivity|].
  split; [split; [discriminate | reflexivity]|]. right. exists "x". reflexivity.
Defined.
